(** * Naming-pattern grammar of the shared ESLint configuration

    The configuration module [eslint.config.mjs] builds, by string
    concatenation, a family of extended-glob patterns that describe the
    admissible names of route files and route folders.  The patterns are
    handed, as strings, to a path-matching engine that answers match or
    no match for one name at a time.

    This development keeps the patterns as the strings the module
    exports.  The engine is not part of the module: what a pattern
    accepts is given here by the way the engine tests a name.  A name
    equal to the text of the pattern is accepted outright; any other
    name is decided by the meaning of the extended-glob notation the
    pattern is written in, through a reader of that notation into
    regular expressions and a matcher by derivatives. *)

From Stdlib Require Import List Bool Arith Lia NArith.
From Stdlib Require Import Ascii String.
Import ListNotations.

Set Implicit Arguments.

Local Open Scope char_scope.
Local Open Scope list_scope.

(* ================================================================= *)
(** ** Character classes *)

(** A class is a list of inclusive ranges.  A literal character [c] is
    the class with the single range [(c, c)]. *)
Definition charclass : Type := list (ascii * ascii).

Definition in_range (c : ascii) (r : ascii * ascii) : bool :=
  (N_of_ascii (fst r) <=? N_of_ascii c)%N && (N_of_ascii c <=? N_of_ascii (snd r))%N.

Definition in_class (c : ascii) (k : charclass) : bool :=
  existsb (in_range c) k.

Definition lit (c : ascii) : charclass := [(c, c)].

(* ================================================================= *)
(** ** Regular expressions and their matcher *)

Inductive regex : Type :=
| Void : regex
| Eps : regex
| Chr : charclass -> regex
| Cat : regex -> regex -> regex
| Alt : regex -> regex -> regex
| Star : regex -> regex.

Definition Plus (r : regex) : regex := Cat r (Star r).
Definition Opt (r : regex) : regex := Alt Eps r.

Fixpoint nullable (r : regex) : bool :=
  match r with
  | Void => false
  | Eps => true
  | Chr _ => false
  | Cat a b => nullable a && nullable b
  | Alt a b => nullable a || nullable b
  | Star _ => true
  end.

Fixpoint deriv (c : ascii) (r : regex) : regex :=
  match r with
  | Void => Void
  | Eps => Void
  | Chr k => if in_class c k then Eps else Void
  | Cat a b =>
      if nullable a then Alt (Cat (deriv c a) b) (deriv c b)
      else Cat (deriv c a) b
  | Alt a b => Alt (deriv c a) (deriv c b)
  | Star a => Cat (deriv c a) (Star a)
  end.

Fixpoint matchb (r : regex) (w : list ascii) : bool :=
  match w with
  | [] => nullable r
  | c :: w' => matchb (deriv c r) w'
  end.

(** The language of a regular expression, as a relation. *)
Inductive Matches : regex -> list ascii -> Prop :=
| MEps : Matches Eps []
| MChr : forall k c, in_class c k = true -> Matches (Chr k) [c]
| MCat : forall a b u v, Matches a u -> Matches b v -> Matches (Cat a b) (u ++ v)
| MAltL : forall a b u, Matches a u -> Matches (Alt a b) u
| MAltR : forall a b u, Matches b u -> Matches (Alt a b) u
| MStarNil : forall a, Matches (Star a) []
| MStarApp : forall a u v,
    Matches a u -> Matches (Star a) v -> Matches (Star a) (u ++ v).

(* ================================================================= *)
(** ** Reading an extended-glob pattern *)

(** The fragment of the notation the naming patterns are written in:
    - a backslash followed by a character is that character itself;
    - a bracket class lists characters and ranges;
    - [+(p)], [*(p)], [?(p)], [@(p)] are one-or-more, zero-or-more,
      zero-or-one and exactly-one of [p];
    - [(p)] and [(?:p)] group;
    - [|] separates alternatives;
    - a character without a special meaning is itself.
    Wildcards, complements, braces and quotes lie outside the fragment:
    a pattern that uses them is not read. *)

(** Body of a bracket class, up to and including the closing bracket. *)
Fixpoint parse_class (s : list ascii) (acc : charclass)
  : option (charclass * list ascii) :=
  match s with
  | [] => None
  | c :: t =>
      if (c =? "]")%char then Some (rev acc, t)
      else
        match t with
        | d :: hi :: rest =>
            if (d =? "-")%char && negb (hi =? "]")%char
            then parse_class rest ((c, hi) :: acc)
            else parse_class t ((c, c) :: acc)
        | _ => parse_class t ((c, c) :: acc)
        end
  end.

Definition parse_bracket (s : list ascii) : option (regex * list ascii) :=
  match s with
  | [] => None
  | c :: _ =>
      if (c =? "!")%char || (c =? "^")%char then None
      else
        match parse_class s [] with
        | Some (k, rest) => Some (Chr k, rest)
        | None => None
        end
  end.

Fixpoint alts_regex (alts : list regex) : regex :=
  match alts with
  | [] => Void
  | [a] => a
  | a :: more => Alt a (alts_regex more)
  end.

Definition backslash : ascii := ascii_of_nat 92.

(** Sequencing of an item with what follows it; nothing is appended
    when nothing follows. *)
Definition seq (r rest : regex) : regex :=
  match rest with
  | Eps => r
  | _ => Cat r rest
  end.

(** The repetition an extended-glob prefix stands for. *)
Definition extglob_wrap (c : ascii) : option (regex -> regex) :=
  if (c =? "+")%char then Some Plus
  else if (c =? "*")%char then Some Star
  else if (c =? "?")%char then Some Opt
  else if (c =? "@")%char then Some (fun r => r)
  else None.

(** Characters that have a meaning of their own outside the fragment. *)
Definition outside_fragment (c : ascii) : bool :=
  (c =? "*")%char || (c =? "?")%char || (c =? "+")%char || (c =? "!")%char
  || (c =? "{")%char || (c =? "}")%char || (c =? ",")%char
  || (c =? ascii_of_nat 34)%char.

(** Opening of a plain group, with or without the [?:] mark. *)
Definition skip_group_mark (s : list ascii) : list ascii :=
  match s with
  | q :: c :: t => if (q =? "?")%char && (c =? ":")%char then t else s
  | _ => s
  end.

(** [parse fuel s] reads the alternatives of the group that [s] is the
    tail of, and stops at the end of the pattern or in front of the
    closing parenthesis of that group.  It returns the alternatives in
    order and what is left of the pattern. *)
Fixpoint parse (fuel : nat) (s : list ascii) : option (list regex * list ascii) :=
  match fuel with
  | O => None
  | S n =>
      let item (r : regex) (t : list ascii) :=
        match parse n t with
        | Some (a :: alts, rest) => Some (seq r a :: alts, rest)
        | _ => None
        end in
      let group (wrap : regex -> regex) (t : list ascii) :=
        match parse n t with
        | Some (alts, c :: rest) =>
            if (c =? ")")%char then item (wrap (alts_regex alts)) rest else None
        | _ => None
        end in
      match s with
      | [] => Some ([Eps], [])
      | c :: t =>
          if (c =? ")")%char then Some ([Eps], s)
          else if (c =? "|")%char then
            match parse n t with
            | Some (alts, rest) => Some (Eps :: alts, rest)
            | None => None
            end
          else if (c =? backslash)%char then
            match t with
            | [] => Some ([Chr (lit backslash)], [])
            | d :: t' => item (Chr (lit d)) t'
            end
          else if (c =? "[")%char then
            match parse_bracket t with
            | Some (r, rest) => item r rest
            | None => None
            end
          else if (c =? "(")%char then group (fun r => r) (skip_group_mark t)
          else
            match extglob_wrap c, t with
            | Some wrap, p :: t' =>
                if (p =? "(")%char then group wrap t'
                else if outside_fragment c then None
                else item (Chr (lit c)) t
            | _, _ =>
                if outside_fragment c then None else item (Chr (lit c)) t
            end
      end
  end.

Definition compile (pattern : string) : option regex :=
  let s := list_ascii_of_string pattern in
  match parse (S (List.length s)) s with
  | Some (alts, []) => Some (alts_regex alts)
  | _ => None
  end.

(** The regular expression a pattern is turned into, tried on a name. *)
Definition regexMatch (pattern name : string) : bool :=
  match compile pattern with
  | Some r => matchb r (list_ascii_of_string name)
  | None => false
  end.

(** The test of one name against one pattern.  The empty name is
    rejected; a name that is the pattern's own text is accepted as it
    stands; any other name is tried against the regular expression. *)
Definition isMatch (pattern name : string) : bool :=
  negb (name =? "")%string
  && ((name =? pattern)%string || regexMatch pattern name).

(* ================================================================= *)
(** ** The patterns of [eslint.config.mjs] *)

Local Open Scope string_scope.

(** camelCase segment. *)
Definition CAMEL_CASE : string := "+([a-z])*([a-z0-9])*([A-Z]*([a-z0-9]))".

(** kebab-case segment. *)
Definition KEBAB_CASE : string := "+([a-z])*([a-z0-9])*(-+([a-z0-9]))".

(** Dynamic route segments. *)
Definition TANSTACK_DYNAMIC_SEGMENTS : string := "\$" ++ CAMEL_CASE.

(** Optional dynamic route segments. *)
Definition TANSTACK_OPTIONAL_SEGMENTS : string :=
  "\$(?:" ++ CAMEL_CASE ++ "\?|\." ++ CAMEL_CASE ++ ")".

(** Catch-all route segment. *)
Definition TANSTACK_CATCH_ALL_SEGMENTS : string := "\$".

(** Grouped routes inside parentheses. *)
Definition TANSTACK_ROUTE_GROUPS : string := "\(" ++ KEBAB_CASE ++ "\)".

(** Private folders prefixed with underscore. *)
Definition TANSTACK_PRIVATE_FOLDERS : string := "\_" ++ CAMEL_CASE.

(** Static route segment. *)
Definition TANSTACK_STATIC_ROUTE : string :=
  "(?:" ++ KEBAB_CASE ++ "|" ++ CAMEL_CASE ++ ")".

(** Full route segment pattern. *)
Definition TANSTACK_ROUTE_SEGMENT : string :=
  "@(" ++ TANSTACK_STATIC_ROUTE ++ "|" ++ TANSTACK_DYNAMIC_SEGMENTS
       ++ "|" ++ TANSTACK_OPTIONAL_SEGMENTS ++ "|" ++ TANSTACK_CATCH_ALL_SEGMENTS
       ++ "|" ++ TANSTACK_ROUTE_GROUPS ++ "|" ++ TANSTACK_PRIVATE_FOLDERS ++ ")".

(** Valid filenames (before the extension). *)
Definition TANSTACK_FILENAME_CASE : string :=
  "@(index|route|" ++ TANSTACK_STATIC_ROUTE ++ "|" ++ TANSTACK_DYNAMIC_SEGMENTS
       ++ "|" ++ TANSTACK_OPTIONAL_SEGMENTS ++ "|" ++ TANSTACK_CATCH_ALL_SEGMENTS
       ++ "|" ++ TANSTACK_ROUTE_GROUPS ++ "|" ++ TANSTACK_PRIVATE_FOLDERS ++ ")".

(** Valid folder names for the routing tree. *)
Definition TANSTACK_FOLDER_CASE : string :=
  "@(" ++ TANSTACK_STATIC_ROUTE ++ "|" ++ TANSTACK_DYNAMIC_SEGMENTS
       ++ "|" ++ TANSTACK_OPTIONAL_SEGMENTS ++ "|" ++ TANSTACK_CATCH_ALL_SEGMENTS
       ++ "|" ++ TANSTACK_ROUTE_GROUPS ++ "|" ++ TANSTACK_PRIVATE_FOLDERS ++ ")".

(** The six ways one path segment may appear in a route tree, and the
    pattern the module exports for each. *)
Inductive RouteSegmentKind : Type :=
| Static | DynamicParam | OptionalParam | CatchAll | RouteGroup | PrivateFolder.

Definition buildRouteSegment (kind : RouteSegmentKind) : string :=
  match kind with
  | Static => TANSTACK_STATIC_ROUTE
  | DynamicParam => TANSTACK_DYNAMIC_SEGMENTS
  | OptionalParam => TANSTACK_OPTIONAL_SEGMENTS
  | CatchAll => TANSTACK_CATCH_ALL_SEGMENTS
  | RouteGroup => TANSTACK_ROUTE_GROUPS
  | PrivateFolder => TANSTACK_PRIVATE_FOLDERS
  end.

(** The option table of the rule [check-file/folder-naming-convention]:
    folder globs, in the order written, with the naming pattern (or the
    name of a built-in case style) each one is held to. *)
Definition folder_naming_convention : list (string * string) :=
  [ ("apps/*/app/routes/**", TANSTACK_FOLDER_CASE);
    ("apps/*/", "KEBAB_CASE");
    ("packages/**/", "KEBAB_CASE") ].

Fixpoint rule_for (glob : string) (table : list (string * string)) : option string :=
  match table with
  | [] => None
  | (g, naming) :: more => if String.eqb g glob then Some naming else rule_for glob more
  end.

Local Close Scope string_scope.

(* ================================================================= *)
(** ** Character and word predicates used in the statements *)

Definition is_lower (c : ascii) : bool := in_range c ("a", "z").
Definition is_upper (c : ascii) : bool := in_range c ("A", "Z").
Definition is_digit (c : ascii) : bool := in_range c ("0", "9").
Definition is_lower_or_digit (c : ascii) : bool := is_lower c || is_digit c.
Definition is_hyphen (c : ascii) : bool := (c =? "-")%char.


(** No two neighbouring characters both satisfy [p]. *)
Fixpoint no_adjacent (p : ascii -> bool) (w : list ascii) : bool :=
  match w with
  | c :: ((d :: _) as t) => negb (p c && p d) && no_adjacent p t
  | _ => true
  end.

Definition starts_with (p : ascii -> bool) (w : list ascii) : bool :=
  match w with
  | c :: _ => p c
  | [] => false
  end.

Definition ends_with (p : ascii -> bool) (w : list ascii) : bool :=
  starts_with p (rev w).

(** The shape the camel-case pattern is described by: one or more
    lowercase letters, then lowercase letters or digits, then runs that
    each open with one uppercase letter and go on with lowercase letters
    or digits.  This definition follows the description, not the
    pattern. *)
Definition uppercase_run (run : list ascii) : bool :=
  match run with
  | u :: rest => is_upper u && forallb is_lower_or_digit rest
  | [] => false
  end.

Definition camel_form (w : list ascii) : Prop :=
  exists lows tail runs,
    w = lows ++ tail ++ List.concat runs
    /\ lows <> []
    /\ forallb is_lower lows = true
    /\ forallb is_lower_or_digit tail = true
    /\ forallb uppercase_run runs = true.

(* ================================================================= *)
(** ** Syntactic analyses of a regular expression

    Each analysis is a boolean function of the expression and of a
    character predicate [p]; a positive answer guarantees a property of
    every word of the language. *)

Definition all_ascii : list ascii := map ascii_of_nat (List.seq 0 256).

Definition complement (p : ascii -> bool) (c : ascii) : bool := negb (p c).

Definition class_within (p : ascii -> bool) (k : charclass) : bool :=
  forallb (fun c => implb (in_class c k) (p c)) all_ascii.

(** Every character a word can contain satisfies [p]. *)
Fixpoint chars_within (p : ascii -> bool) (r : regex) : bool :=
  match r with
  | Void | Eps => true
  | Chr k => class_within p k
  | Cat a b | Alt a b => chars_within p a && chars_within p b
  | Star a => chars_within p a
  end.

(** Every character a word can start with satisfies [p]. *)
Fixpoint firsts_within (p : ascii -> bool) (r : regex) : bool :=
  match r with
  | Void | Eps => true
  | Chr k => class_within p k
  | Cat a b => firsts_within p a && (negb (nullable a) || firsts_within p b)
  | Alt a b => firsts_within p a && firsts_within p b
  | Star a => firsts_within p a
  end.

(** Every character a word can end with satisfies [p]. *)
Fixpoint lasts_within (p : ascii -> bool) (r : regex) : bool :=
  match r with
  | Void | Eps => true
  | Chr k => class_within p k
  | Cat a b => lasts_within p b && (negb (nullable b) || lasts_within p a)
  | Alt a b => lasts_within p a && lasts_within p b
  | Star a => lasts_within p a
  end.

(** Every word contains a character that satisfies [p]. *)
Fixpoint must_have (p : ascii -> bool) (r : regex) : bool :=
  match r with
  | Void => true
  | Eps => false
  | Chr k => class_within p k
  | Cat a b => must_have p a || must_have p b
  | Alt a b => must_have p a && must_have p b
  | Star _ => false
  end.

(** No word has two neighbouring characters that both satisfy [p]. *)
Fixpoint never_adjacent (p : ascii -> bool) (r : regex) : bool :=
  match r with
  | Void | Eps | Chr _ => true
  | Cat a b =>
      never_adjacent p a && never_adjacent p b
      && (lasts_within (complement p) a || firsts_within (complement p) b)
  | Alt a b => never_adjacent p a && never_adjacent p b
  | Star a =>
      never_adjacent p a
      && (lasts_within (complement p) a || firsts_within (complement p) a)
  end.

(** [p] tells two languages apart: by the first character of their
    words, or because the words of one stay inside [p] while each word
    of the other leaves it. *)
Definition separates (p : ascii -> bool) (a b : regex) : bool :=
  (negb (nullable a && nullable b)
   && firsts_within p a && firsts_within (complement p) b)
  || (chars_within p a && must_have (complement p) b).

Definition separators : list (ascii -> bool) :=
  [ is_lower; Ascii.eqb "("; Ascii.eqb "_"; Ascii.eqb "$";
    (fun c => negb ((c =? "?")%char || (c =? ".")%char)) ].

Definition separable (a b : regex) : bool :=
  existsb (fun p => separates p a b || separates p b a) separators.

(* ================================================================= *)
(** ** What the exported patterns read as *)

Definition lower : regex := Chr [("a", "z")].
Definition upper : regex := Chr [("A", "Z")].
Definition lower_or_digit : regex := Chr [("a", "z"); ("0", "9")].
Definition chr (c : ascii) : regex := Chr (lit c).

(** camelCase opening, followed by [k]. *)
Definition camel_then (k : regex) : regex :=
  Cat (Plus lower) (Cat (Star lower_or_digit) k).

Definition upper_runs : regex := Star (Cat upper (Star lower_or_digit)).
Definition hyphen_groups : regex := Star (Cat (chr "-") (Plus lower_or_digit)).

Definition camel_re : regex := camel_then upper_runs.
Definition kebab_re : regex := camel_then hyphen_groups.

Definition static_re : regex := Alt kebab_re camel_re.
Definition dynamic_re : regex := Cat (chr "$") camel_re.
Definition optional_re : regex :=
  Cat (chr "$")
      (Alt (camel_then (Cat upper_runs (chr "?"))) (Cat (chr ".") camel_re)).
Definition catch_all_re : regex := chr "$".
Definition route_group_re : regex :=
  Cat (chr "(") (camel_then (Cat hyphen_groups (chr ")"))).
Definition private_re : regex := Cat (chr "_") camel_re.

Definition segment_regex (kind : RouteSegmentKind) : regex :=
  match kind with
  | Static => static_re
  | DynamicParam => dynamic_re
  | OptionalParam => optional_re
  | CatchAll => catch_all_re
  | RouteGroup => route_group_re
  | PrivateFolder => private_re
  end.

Definition route_segment_re : regex :=
  Alt static_re (Alt dynamic_re (Alt optional_re
    (Alt catch_all_re (Alt route_group_re private_re)))).

(** A literal word. *)
Fixpoint word_re (l : list ascii) : regex :=
  match l with
  | [] => Eps
  | [c] => chr c
  | c :: t => Cat (chr c) (word_re t)
  end.

Definition filename_re : regex :=
  Alt (word_re (list_ascii_of_string "index"))
      (Alt (word_re (list_ascii_of_string "route")) route_segment_re).

(* ================================================================= *)
(** ** Further predicates and the filename rule table *)

Definition is_alnum (c : ascii) : bool := is_lower c || is_upper c || is_digit c.

(** Lowercase letters and digits joined by single hyphens, opening
    with a letter. *)
Definition kebab_shape (w : list ascii) : bool :=
  starts_with is_lower w
  && forallb (fun c => is_lower_or_digit c || is_hyphen c) w
  && no_adjacent is_hyphen w
  && negb (ends_with is_hyphen w).

(** The characters a route segment can open with. *)
Definition segment_lead (c : ascii) : bool :=
  is_lower c || (c =? "$")%char || (c =? "(")%char || (c =? "_")%char.

Definition is_dot_or_question (c : ascii) : bool :=
  (c =? ".")%char || (c =? "?")%char.

(** The option table of the rule [check-file/filename-naming-convention]:
    file globs, in the order written, with the name of the built-in
    case style each one is held to. *)
Definition filename_naming_convention : list (string * string) :=
  [ ("**/app/components/**/*.tsx", "PASCAL_CASE");
    ("**/app/plugins/*.ts", "PASCAL_CASE");
    ("**/app/styles/*.css", "KEBAB_CASE");
    ("**/app/**/hooks/*.ts", "CAMEL_CASE");
    ("**/app/utils/*.ts", "CAMEL_CASE");
    ("**/packages/components/**/*.tsx", "PASCAL_CASE");
    ("**/packages/utils/*.ts", "CAMEL_CASE") ]%string.

(** The names of built-in case styles the two tables use. *)
Definition builtin_case_names : list string :=
  [ "KEBAB_CASE"; "PASCAL_CASE"; "CAMEL_CASE" ]%string.

(** [pattern] reads as [r]: the pattern is not empty, its regular
    expression is [r], and [r] accepts neither the empty name nor the
    text of the pattern. *)
Definition reads_as (pattern : string) (r : regex) : Prop :=
  compile pattern = Some r
  /\ nullable r = false
  /\ pattern <> ""%string
  /\ matchb r (list_ascii_of_string pattern) = false.

(* ================================================================= *)
(** ** The matcher decides the language *)

Section MatcherCorrect.

Lemma Matches_Cat_inv a b w :
  Matches (Cat a b) w ->
  exists u v, w = u ++ v /\ Matches a u /\ Matches b v.
Proof. inversion 1; subst; eauto. Qed.

Lemma Matches_Alt_inv a b w :
  Matches (Alt a b) w -> Matches a w \/ Matches b w.
Proof. inversion 1; subst; auto. Qed.

Lemma Matches_Eps_inv w : Matches Eps w -> w = [].
Proof. inversion 1; reflexivity. Qed.

Lemma Matches_Chr_inv k w :
  Matches (Chr k) w -> exists c, w = [c] /\ in_class c k = true.
Proof. inversion 1; subst; eauto. Qed.

(** A non-empty word of a starred language splits after a first
    non-empty factor. *)
Lemma Matches_Star_cons a c w :
  Matches (Star a) (c :: w) ->
  exists u v, w = u ++ v /\ Matches a (c :: u) /\ Matches (Star a) v.
Proof.
  intros H. remember (Star a) as r eqn:Er. remember (c :: w) as cw eqn:Ew.
  revert Ew.
  induction H as [ | | | | | |a' u v Hu _ Hv IHv]; intros Ew; try discriminate.
  injection Er as ->.
  destruct u as [|c' u'].
  - simpl in Ew. apply IHv; auto.
  - simpl in Ew. injection Ew as -> <-. exists u', v. auto.
Qed.

Lemma nullable_Matches r : nullable r = true <-> Matches r [].
Proof.
  induction r as [ | |k|a IHa b IHb|a IHa b IHb|a IHa]; simpl.
  - split; [discriminate | intros H; inversion H].
  - split; [constructor | reflexivity].
  - split; [discriminate | intros H; inversion H].
  - rewrite andb_true_iff, IHa, IHb. split.
    + intros [Ha Hb]. exact (MCat Ha Hb).
    + intros H. apply Matches_Cat_inv in H as (u & v & E & Hu & Hv).
      symmetry in E. apply app_eq_nil in E as [-> ->]. auto.
  - rewrite orb_true_iff, IHa, IHb. split.
    + intros [H|H]; [apply MAltL | apply MAltR]; assumption.
    + apply Matches_Alt_inv.
  - split; [constructor | reflexivity].
Qed.

Lemma deriv_Matches c r : forall w, Matches (deriv c r) w <-> Matches r (c :: w).
Proof.
  induction r as [ | |k|a IHa b IHb|a IHa b IHb|a IHa]; simpl; intros w.
  - split; intros H; inversion H.
  - split; intros H; inversion H.
  - destruct (in_class c k) eqn:Ek; split; intros H.
    + apply Matches_Eps_inv in H as ->. constructor; assumption.
    + apply Matches_Chr_inv in H as (c' & E & _). injection E as _ ->. constructor.
    + inversion H.
    + apply Matches_Chr_inv in H as (c' & E & Hc). injection E as <- _. congruence.
  - assert (Hcat : Matches (Cat (deriv c a) b) w ->  Matches (Cat a b) (c :: w)).
    { intros H. apply Matches_Cat_inv in H as (u & v & -> & Hu & Hv).
      apply IHa in Hu. exact (MCat Hu Hv). }
    assert (Hinv : Matches (Cat a b) (c :: w) ->
                   Matches (Cat (deriv c a) b) w \/ (Matches a [] /\ Matches (deriv c b) w)).
    { intros H. apply Matches_Cat_inv in H as (u & v & E & Hu & Hv).
      destruct u as [|c' u'].
      - simpl in E. subst v. right. split; [assumption | apply IHb; assumption].
      - simpl in E. injection E as <- ->. left. apply MCat; [apply IHa|]; assumption. }
    destruct (nullable a) eqn:Na; split; intros H.
    + apply Matches_Alt_inv in H as [H|H]; [auto|].
      apply IHb in H. apply nullable_Matches in Na. exact (MCat Na H).
    + apply Hinv in H as [H|[_ H]]; [apply MAltL | apply MAltR]; assumption.
    + auto.
    + apply Hinv in H as [H|[H _]]; [assumption|].
      apply nullable_Matches in H. congruence.
  - split; intros H.
    + apply Matches_Alt_inv in H as [H|H]; [apply MAltL, IHa | apply MAltR, IHb]; assumption.
    + apply Matches_Alt_inv in H as [H|H]; [apply MAltL, IHa | apply MAltR, IHb]; assumption.
  - split; intros H.
    + apply Matches_Cat_inv in H as (u & v & -> & Hu & Hv).
      apply IHa in Hu. exact (MStarApp Hu Hv).
    + apply Matches_Star_cons in H as (u & v & -> & Hu & Hv).
      apply MCat; [apply IHa|]; assumption.
Qed.

Theorem matchb_Matches r w : matchb r w = true <-> Matches r w.
Proof.
  revert r. induction w as [|c w IH]; intros r; simpl.
  - apply nullable_Matches.
  - rewrite IH. apply deriv_Matches.
Qed.

Lemma matchb_Alt a b w : matchb (Alt a b) w = matchb a w || matchb b w.
Proof.
  revert a b. induction w as [|c w IH]; intros a b; simpl; [reflexivity | apply IH].
Qed.

End MatcherCorrect.

(** Matching against a pattern whose reading is known. *)
Lemma regexMatch_reading pattern r name :
  compile pattern = Some r ->
  (regexMatch pattern name = true <-> Matches r (list_ascii_of_string name)).
Proof.
  intros E. unfold regexMatch. rewrite E. apply matchb_Matches.
Qed.

Lemma regexMatch_reading_eq pattern r name :
  compile pattern = Some r ->
  regexMatch pattern name = matchb r (list_ascii_of_string name).
Proof. intros E. unfold regexMatch. rewrite E. reflexivity. Qed.

(* ================================================================= *)
(** ** Soundness of the analyses *)

Lemma all_ascii_complete c : In c all_ascii.
Proof.
  unfold all_ascii. rewrite <- (ascii_nat_embedding c).
  apply in_map, in_seq. pose proof (nat_ascii_bounded c). lia.
Qed.

Lemma exists_last_or_nil (v : list ascii) :
  v = [] \/ exists v' d, v = v' ++ [d].
Proof.
  destruct v as [|c v]; [left; reflexivity | right].
  destruct (@exists_last _ (c :: v)) as (v' & d & E); [discriminate | eauto].
Qed.

Ltac split_andb :=
  repeat match goal with
         | H : _ && _ = true |- _ => apply andb_true_iff in H as [? ?]
         end.

Section AnalysesSound.

Variable P : ascii -> bool.

Lemma class_within_sound k c :
  class_within P k = true -> in_class c k = true -> P c = true.
Proof.
  unfold class_within. rewrite forallb_forall. intros H Hc.
  specialize (H c (all_ascii_complete c)). rewrite Hc in H. exact H.
Qed.

Lemma chars_within_sound r w :
  chars_within P r = true -> Matches r w -> forallb P w = true.
Proof.
  intros Hr Hm. induction Hm; simpl in *; split_andb; auto.
  - rewrite (class_within_sound _ _ Hr H). reflexivity.
  - rewrite forallb_app, IHHm1, IHHm2; auto.
  - rewrite forallb_app, IHHm1, IHHm2; auto.
Qed.

Lemma firsts_within_sound r w :
  firsts_within P r = true -> Matches r w ->
  forall c w', w = c :: w' -> P c = true.
Proof.
  intros Hr Hm. induction Hm; simpl in Hr; intros c0 w' E; try discriminate.
  - injection E as -> _. eapply class_within_sound; eassumption.
  - apply andb_true_iff in Hr as [Ha Hb].
    destruct u as [|c1 u'].
    + apply nullable_Matches in Hm1. rewrite Hm1 in Hb. simpl in *. eauto.
    + simpl in E. injection E as -> _. eauto.
  - apply andb_true_iff in Hr as [Ha Hb]. eauto.
  - apply andb_true_iff in Hr as [Ha Hb]. eauto.
  - destruct u as [|c1 u'].
    + simpl in E. eauto.
    + simpl in E. injection E as -> _. eauto.
Qed.

Lemma lasts_within_sound r w :
  lasts_within P r = true -> Matches r w ->
  forall c w', w = w' ++ [c] -> P c = true.
Proof.
  intros Hr Hm. induction Hm; simpl in Hr; intros c0 w' E.
  - destruct w'; discriminate.
  - destruct w' as [|? [|]]; try discriminate. injection E as ->.
    eapply class_within_sound; eassumption.
  - apply andb_true_iff in Hr as [Hb Ha].
    destruct (exists_last_or_nil v) as [->|(v' & d & ->)].
    + rewrite app_nil_r in E. apply nullable_Matches in Hm2.
      rewrite Hm2 in Ha. simpl in Ha. eauto.
    + rewrite app_assoc in E. apply app_inj_tail in E as [_ ->]. eauto.
  - apply andb_true_iff in Hr as [Ha Hb]. eauto.
  - apply andb_true_iff in Hr as [Ha Hb]. eauto.
  - destruct w'; discriminate.
  - destruct (exists_last_or_nil v) as [->|(v' & d & ->)].
    + rewrite app_nil_r in E. eauto.
    + rewrite app_assoc in E. apply app_inj_tail in E as [_ ->]. eauto.
Qed.

Lemma must_have_sound r w :
  must_have P r = true -> Matches r w -> existsb P w = true.
Proof.
  intros Hr Hm. induction Hm; simpl in Hr; try discriminate.
  - simpl. rewrite (class_within_sound _ _ Hr H). reflexivity.
  - rewrite existsb_app. apply orb_true_iff in Hr as [Ha|Hb];
      [rewrite IHHm1 | rewrite IHHm2, orb_true_r]; auto.
  - apply andb_true_iff in Hr as [Ha Hb]. auto.
  - apply andb_true_iff in Hr as [Ha Hb]. auto.
Qed.

End AnalysesSound.

Section AdjacencySound.

Variable P : ascii -> bool.

Lemma no_adjacent_app u v :
  no_adjacent P u = true -> no_adjacent P v = true ->
  (forall c u', u = u' ++ [c] -> complement P c = true) \/
  (forall c v', v = c :: v' -> complement P c = true) ->
  no_adjacent P (u ++ v) = true.
Proof.
  induction u as [|c u IH]; intros Hu Hv Hb; [exact Hv|].
  destruct u as [|c' u'].
  - destruct v as [|d v']; [reflexivity|].
    change (negb (P c && P d) && no_adjacent P (d :: v') = true).
    rewrite Hv, andb_true_r.
    destruct Hb as [Hb|Hb].
    + specialize (Hb c [] eq_refl). unfold complement in Hb.
      destruct (P c); [discriminate | reflexivity].
    + specialize (Hb d v' eq_refl). unfold complement in Hb.
      destruct (P d); [discriminate | apply negb_true_iff, andb_false_r].
  - change (negb (P c && P c') && no_adjacent P ((c' :: u') ++ v) = true).
    change (negb (P c && P c') && no_adjacent P (c' :: u') = true) in Hu.
    apply andb_true_iff in Hu as [H1 H2]. rewrite H1. simpl andb.
    apply IH; auto.
    destruct Hb as [Hb|Hb]; [left | right; exact Hb].
    intros d w E. apply (Hb d (c :: w)). rewrite E. reflexivity.
Qed.

Lemma never_adjacent_sound r w :
  never_adjacent P r = true -> Matches r w -> no_adjacent P w = true.
Proof.
  intros Hr Hm. induction Hm; simpl in Hr; try reflexivity.
  - apply andb_true_iff in Hr as [Hr Hb]. apply andb_true_iff in Hr as [H1 H2].
    apply no_adjacent_app; auto.
    apply orb_true_iff in Hb as [Hb|Hb]; [left | right]; intros c w E.
    + eapply lasts_within_sound; [exact Hb | exact Hm1 | exact E].
    + eapply firsts_within_sound; [exact Hb | exact Hm2 | exact E].
  - apply andb_true_iff in Hr as [H1 H2]. auto.
  - apply andb_true_iff in Hr as [H1 H2]. auto.
  - pose proof Hr as Hr'. apply andb_true_iff in Hr' as [H1 Hb].
    apply no_adjacent_app; auto.
    apply orb_true_iff in Hb as [Hb|Hb]; [left | right]; intros c w E.
    + eapply lasts_within_sound; [exact Hb | exact Hm1 | exact E].
    + assert (Hs : firsts_within (complement P) (Star a) = true) by exact Hb.
      eapply firsts_within_sound; [exact Hs | exact Hm2 | exact E].
Qed.

End AdjacencySound.

Lemma separates_sound p a b w :
  separates p a b = true -> Matches a w -> Matches b w -> False.
Proof.
  unfold separates. intros H Ha Hb.
  apply orb_true_iff in H as [H|H].
  - apply andb_true_iff in H as [H H3]. apply andb_true_iff in H as [H1 H2].
    destruct w as [|c w'].
    + apply nullable_Matches in Ha, Hb. rewrite Ha, Hb in H1. discriminate.
    + pose proof (firsts_within_sound _ H2 Ha eq_refl) as Hp.
      pose proof (firsts_within_sound _ H3 Hb eq_refl) as Hn.
      unfold complement in Hn. rewrite Hp in Hn. discriminate.
  - apply andb_true_iff in H as [H1 H2].
    pose proof (chars_within_sound _ H1 Ha) as Hall.
    pose proof (must_have_sound _ H2 Hb) as Hex.
    apply existsb_exists in Hex as (c & Hin & Hc).
    rewrite forallb_forall in Hall. specialize (Hall c Hin).
    unfold complement in Hc. rewrite Hall in Hc. discriminate.
Qed.

Lemma separable_sound a b w :
  separable a b = true -> Matches a w -> Matches b w -> False.
Proof.
  unfold separable. intros H Ha Hb.
  apply existsb_exists in H as (p & _ & H).
  apply orb_true_iff in H as [H|H]; eapply separates_sound; eassumption.
Qed.

(* ================================================================= *)
(** ** Auxiliary facts on characters, words and strings *)

Lemma in_class_lit c d : in_class c (lit d) = true -> c = d.
Proof.
  unfold in_class, lit, in_range. simpl. rewrite orb_false_r.
  intros H. apply andb_true_iff in H as [H1 H2].
  apply N.leb_le in H1, H2.
  rewrite <- (ascii_N_embedding c), <- (ascii_N_embedding d).
  f_equal. lia.
Qed.

Lemma in_class_lit_refl c : in_class c (lit c) = true.
Proof.
  unfold in_class, lit, in_range. simpl.
  rewrite N.leb_refl. reflexivity.
Qed.

Lemma Matches_chr c : Matches (chr c) [c].
Proof. apply MChr, in_class_lit_refl. Qed.

Lemma Matches_chr_inv c w : Matches (chr c) w -> w = [c].
Proof.
  intros H. apply Matches_Chr_inv in H as (d & -> & Hd).
  apply in_class_lit in Hd as ->. reflexivity.
Qed.


Lemma forallb_negb_existsb (p : ascii -> bool) w :
  forallb (fun c => negb (p c)) w = true -> existsb p w = false.
Proof.
  induction w as [|c w IH]; simpl; [reflexivity|].
  intros H. apply andb_true_iff in H as [H1 H2].
  apply negb_true_iff in H1. rewrite H1, IH; auto.
Qed.

Lemma list_ascii_of_string_app (a b : string) :
  list_ascii_of_string (a ++ b)%string = list_ascii_of_string a ++ list_ascii_of_string b.
Proof. induction a as [|c a IH]; simpl; [reflexivity | rewrite IH; reflexivity]. Qed.

Lemma list_ascii_of_string_inj (a b : string) :
  list_ascii_of_string a = list_ascii_of_string b -> a = b.
Proof.
  intros E. rewrite <- (string_of_list_ascii_of_string a), E.
  apply string_of_list_ascii_of_string.
Qed.

(* ================================================================= *)
(** ** Words of starred classes and of starred runs *)

Section StarredClass.

Variables (k : charclass) (p : ascii -> bool).
Hypothesis class_is_p : forall c, in_class c k = p c.

Lemma Matches_Star_class w :
  Matches (Star (Chr k)) w <-> forallb p w = true.
Proof.
  split.
  - induction w as [|c w IH]; intros H; [reflexivity|].
    apply Matches_Star_cons in H as (u & v & -> & Hu & Hv).
    apply Matches_Chr_inv in Hu as (d & E & Hd). injection E as -> ->.
    simpl. rewrite <- class_is_p, Hd. simpl. apply IH. exact Hv.
  - induction w as [|c w IH]; intros H; [constructor|].
    simpl in H. apply andb_true_iff in H as [Hc Hw].
    change (Matches (Star (Chr k)) ([c] ++ w)).
    apply MStarApp; [apply MChr; rewrite class_is_p; exact Hc | auto].
Qed.

Lemma Matches_Plus_class w :
  Matches (Plus (Chr k)) w <-> w <> [] /\ forallb p w = true.
Proof.
  unfold Plus. split.
  - intros H. apply Matches_Cat_inv in H as (u & v & -> & Hu & Hv).
    apply Matches_Chr_inv in Hu as (d & -> & Hd).
    apply Matches_Star_class in Hv.
    split; [discriminate|]. simpl. rewrite <- class_is_p, Hd. exact Hv.
  - intros [Hne H]. destruct w as [|c w]; [contradiction|].
    simpl in H. apply andb_true_iff in H as [Hc Hw].
    change (Matches (Cat (Chr k) (Star (Chr k))) ([c] ++ w)).
    apply MCat; [apply MChr; rewrite class_is_p; exact Hc|].
    apply Matches_Star_class. exact Hw.
Qed.

End StarredClass.

Lemma Matches_Star_runs a w :
  Matches (Star a) w <->
  exists runs, w = List.concat runs /\ Forall (fun run => Matches a run) runs.
Proof.
  split.
  - intros H. remember (Star a) as r eqn:Er.
    induction H as [ | | | | | |a' u v Hu _ Hv IHv]; try discriminate.
    + exists []. split; [reflexivity | constructor].
    + injection Er as ->. destruct (IHv eq_refl) as (runs & -> & Hruns).
      exists (u :: runs). split; [reflexivity | constructor; assumption].
  - intros (runs & -> & Hruns).
    induction Hruns as [|run runs Hrun _ IH]; simpl; [constructor|].
    apply MStarApp; assumption.
Qed.

Lemma in_class_lower c : in_class c [("a", "z")] = is_lower c.
Proof. unfold in_class, is_lower. simpl. apply orb_false_r. Qed.

Lemma in_class_upper c : in_class c [("A", "Z")] = is_upper c.
Proof. unfold in_class, is_upper. simpl. apply orb_false_r. Qed.

Lemma in_class_lower_or_digit c :
  in_class c [("a", "z"); ("0", "9")] = is_lower_or_digit c.
Proof.
  unfold in_class, is_lower_or_digit, is_lower, is_digit. simpl.
  rewrite orb_false_r. reflexivity.
Qed.

(** The words of a camelCase opening followed by [k], and how a
    continuation made of two parts splits off its second part. *)
Lemma Matches_camel_then k w :
  Matches (camel_then k) w <->
  exists lows tail rest,
    w = lows ++ tail ++ rest
    /\ lows <> [] /\ forallb is_lower lows = true
    /\ forallb is_lower_or_digit tail = true
    /\ Matches k rest.
Proof.
  unfold camel_then. split.
  - intros H. apply Matches_Cat_inv in H as (lows & x & -> & Hl & Hx).
    apply Matches_Cat_inv in Hx as (tail & rest & -> & Ht & Hr).
    apply (@Matches_Plus_class _ _ in_class_lower _) in Hl as [Hne Hl].
    apply (@Matches_Star_class _ _ in_class_lower_or_digit _) in Ht.
    exists lows, tail, rest. auto.
  - intros (lows & tail & rest & -> & Hne & Hl & Ht & Hr).
    apply MCat; [apply (@Matches_Plus_class _ _ in_class_lower _); auto|].
    apply MCat; [apply (@Matches_Star_class _ _ in_class_lower_or_digit _); auto | exact Hr].
Qed.

Lemma Matches_camel_then_Cat k1 k2 w :
  Matches (camel_then (Cat k1 k2)) w <->
  exists u v, w = u ++ v /\ Matches (camel_then k1) u /\ Matches k2 v.
Proof.
  rewrite Matches_camel_then. split.
  - intros (lows & tail & rest & -> & Hne & Hl & Ht & Hr).
    apply Matches_Cat_inv in Hr as (x & y & -> & Hx & Hy).
    exists (lows ++ tail ++ x), y. split; [|split; [|exact Hy]].
    + rewrite <- !app_assoc. reflexivity.
    + apply Matches_camel_then. exists lows, tail, x. auto.
  - intros (u & v & -> & Hu & Hv).
    apply Matches_camel_then in Hu as (lows & tail & x & -> & Hne & Hl & Ht & Hx).
    exists lows, tail, (x ++ v). repeat split; auto.
    + rewrite <- !app_assoc. reflexivity.
    + apply MCat; assumption.
Qed.

Lemma Matches_upper_run run :
  Matches (Cat upper (Star lower_or_digit)) run <-> uppercase_run run = true.
Proof.
  split.
  - intros H. apply Matches_Cat_inv in H as (u & v & -> & Hu & Hv).
    apply Matches_Chr_inv in Hu as (c & -> & Hc).
    apply (@Matches_Star_class _ _ in_class_lower_or_digit _) in Hv.
    rewrite in_class_upper in Hc. simpl. rewrite Hc, Hv. reflexivity.
  - destruct run as [|c rest]; [discriminate|]. simpl. intros H.
    apply andb_true_iff in H as [Hc Hrest].
    change (Matches (Cat upper (Star lower_or_digit)) ([c] ++ rest)).
    apply MCat.
    + apply MChr. rewrite in_class_upper. exact Hc.
    + apply (@Matches_Star_class _ _ in_class_lower_or_digit _). exact Hrest.
Qed.

Lemma Matches_camel_re w : Matches camel_re w <-> camel_form w.
Proof.
  unfold camel_re, camel_form, upper_runs. rewrite Matches_camel_then.
  split.
  - intros (lows & tail & rest & -> & Hne & Hl & Ht & Hr).
    apply Matches_Star_runs in Hr as (runs & -> & Hruns).
    exists lows, tail, runs. repeat split; auto.
    apply forallb_forall. rewrite Forall_forall in Hruns.
    intros run Hin. apply Matches_upper_run, Hruns, Hin.
  - intros (lows & tail & runs & -> & Hne & Hl & Ht & Hruns).
    exists lows, tail, (List.concat runs). repeat split; auto.
    apply Matches_Star_runs. exists runs. split; [reflexivity|].
    apply Forall_forall. rewrite forallb_forall in Hruns.
    intros run Hin. apply Matches_upper_run, Hruns, Hin.
Qed.


(* ================================================================= *)
(** ** The readings of the exported patterns *)

Section Readings.

Lemma compile_CAMEL_CASE : compile CAMEL_CASE = Some camel_re.
Proof. vm_compute. reflexivity. Qed.

Lemma compile_KEBAB_CASE : compile KEBAB_CASE = Some kebab_re.
Proof. vm_compute. reflexivity. Qed.

Lemma compile_buildRouteSegment kind :
  compile (buildRouteSegment kind) = Some (segment_regex kind).
Proof. destruct kind; vm_compute; reflexivity. Qed.

Lemma compile_ROUTE_SEGMENT : compile TANSTACK_ROUTE_SEGMENT = Some route_segment_re.
Proof. vm_compute. reflexivity. Qed.

Lemma compile_FOLDER_CASE : compile TANSTACK_FOLDER_CASE = Some route_segment_re.
Proof. vm_compute. reflexivity. Qed.

Lemma compile_FILENAME_CASE : compile TANSTACK_FILENAME_CASE = Some filename_re.
Proof. vm_compute. reflexivity. Qed.

End Readings.

(* ================================================================= *)
(** ** Words of the composed patterns *)

Local Close Scope string_scope.

Lemma forall_ascii (f : ascii -> bool) :
  forallb f all_ascii = true -> forall c, f c = true.
Proof.
  intros H c. rewrite forallb_forall in H. apply H, all_ascii_complete.
Qed.

Lemma Matches_Cat_chr c r w :
  Matches (Cat (chr c) r) w <-> exists v, w = c :: v /\ Matches r v.
Proof.
  split.
  - intros H. apply Matches_Cat_inv in H as (u & v & -> & Hu & Hv).
    apply Matches_chr_inv in Hu as ->. exists v. auto.
  - intros (v & -> & Hv). change (Matches (Cat (chr c) r) ([c] ++ v)).
    apply MCat; [apply Matches_chr | exact Hv].
Qed.

Lemma Matches_Star_app a u v :
  Matches (Star a) u -> Matches (Star a) v -> Matches (Star a) (u ++ v).
Proof.
  intros Hu Hv. apply Matches_Star_runs in Hu as (ru & -> & Hru).
  apply Matches_Star_runs in Hv as (rv & -> & Hrv).
  apply Matches_Star_runs. exists (ru ++ rv). split.
  - rewrite concat_app. reflexivity.
  - apply Forall_app. auto.
Qed.

Lemma Matches_route_group_re w :
  Matches route_group_re w <->
  exists k, Matches kebab_re k /\ w = "(" :: k ++ [")"].
Proof.
  unfold route_group_re, kebab_re. rewrite Matches_Cat_chr. split.
  - intros (v & -> & Hv).
    apply Matches_camel_then_Cat in Hv as (k & x & -> & Hk & Hx).
    apply Matches_chr_inv in Hx as ->. exists k. auto.
  - intros (k & Hk & ->). exists (k ++ [")"]). split; [reflexivity|].
    apply Matches_camel_then_Cat. exists k, [")"].
    repeat split; [exact Hk | apply Matches_chr].
Qed.

Lemma Matches_route_segment_re w :
  Matches route_segment_re w <-> exists kind, Matches (segment_regex kind) w.
Proof.
  unfold route_segment_re. split.
  - intros H.
    apply Matches_Alt_inv in H as [H|H]; [exists Static; exact H|].
    apply Matches_Alt_inv in H as [H|H]; [exists DynamicParam; exact H|].
    apply Matches_Alt_inv in H as [H|H]; [exists OptionalParam; exact H|].
    apply Matches_Alt_inv in H as [H|H]; [exists CatchAll; exact H|].
    apply Matches_Alt_inv in H as [H|H]; [exists RouteGroup; exact H|].
    exists PrivateFolder. exact H.
  - intros ([] & H); simpl in H.
    + apply MAltL. exact H.
    + apply MAltR, MAltL. exact H.
    + do 2 apply MAltR. apply MAltL. exact H.
    + do 3 apply MAltR. apply MAltL. exact H.
    + do 4 apply MAltR. apply MAltL. exact H.
    + do 5 apply MAltR. exact H.
Qed.

(* ================================================================= *)
(** ** The shapes of camel-case and kebab-case names *)


Lemma forallb_impl (p q : ascii -> bool) w :
  (forall c, p c = true -> q c = true) ->
  forallb p w = true -> forallb q w = true.
Proof.
  intros Hpq. induction w as [|c w IH]; simpl; [reflexivity|].
  intros H. apply andb_true_iff in H as [Hc Hw].
  rewrite (Hpq c Hc), IH; auto.
Qed.

Lemma forallb_both (p q r : ascii -> bool) w :
  (forall c, p c = true -> q c = true -> r c = true) ->
  forallb p w = true -> forallb q w = true -> forallb r w = true.
Proof.
  intros Hpq. induction w as [|c w IH]; simpl; [reflexivity|].
  intros Hp Hq. apply andb_true_iff in Hp as [Hp1 Hp2].
  apply andb_true_iff in Hq as [Hq1 Hq2].
  rewrite (Hpq c Hp1 Hq1), IH; auto.
Qed.

Lemma char_fact (f : ascii -> bool) (c : ascii) :
  forallb f all_ascii = true -> f c = true.
Proof. intros H. exact (forall_ascii f H c). Qed.

Lemma lower_is_lower_or_digit c : is_lower c = true -> is_lower_or_digit c = true.
Proof. unfold is_lower_or_digit. intros ->. reflexivity. Qed.

Lemma lower_or_digit_is_alnum c : is_lower_or_digit c = true -> is_alnum c = true.
Proof.
  unfold is_lower_or_digit, is_alnum. intros H.
  apply orb_true_iff in H as [-> | ->]; [reflexivity | apply orb_true_r].
Qed.

Lemma lower_or_digit_not_hyphen c :
  is_lower_or_digit c = true -> complement is_hyphen c = true.
Proof.
  intros H.
  pose proof (char_fact
    (fun c => implb (is_lower_or_digit c) (complement is_hyphen c)) c) as F.
  simpl in F. rewrite H in F. apply F. vm_compute. reflexivity.
Qed.

Lemma alnum_not_hyphen c :
  is_lower_or_digit c || is_hyphen c = true -> is_alnum c = true ->
  is_lower_or_digit c = true.
Proof.
  intros H1 H2.
  pose proof (char_fact
    (fun c => implb (is_lower_or_digit c || is_hyphen c)
                (implb (is_alnum c) (is_lower_or_digit c))) c) as F.
  simpl in F. rewrite H1, H2 in F. apply F. vm_compute. reflexivity.
Qed.

Lemma no_adjacent_tail p c v :
  no_adjacent p (c :: v) = true -> no_adjacent p v = true.
Proof.
  destruct v as [|d v']; [reflexivity|].
  intros H. change (negb (p c && p d) && no_adjacent p (d :: v') = true) in H.
  apply andb_true_iff in H as [_ H]. exact H.
Qed.

Lemma ends_with_cons p c v :
  v <> [] -> ends_with p (c :: v) = ends_with p v.
Proof.
  intros Hne. destruct (exists_last_or_nil v) as [->|(u & d & ->)];
    [contradiction|].
  unfold ends_with. simpl. rewrite rev_app_distr. reflexivity.
Qed.

Lemma ends_with_tail_false p c v :
  ends_with p (c :: v) = false -> ends_with p v = false.
Proof.
  destruct v as [|d v']; [reflexivity|].
  rewrite ends_with_cons by discriminate. auto.
Qed.

Lemma free_of_no_adjacent p w :
  forallb (complement p) w = true -> no_adjacent p w = true.
Proof.
  induction w as [|c w IH]; [reflexivity|].
  intros H. simpl in H. apply andb_true_iff in H as [Hc Hw].
  destruct w as [|d w']; [reflexivity|].
  change (negb (p c && p d) && no_adjacent p (d :: w') = true).
  unfold complement in Hc. apply negb_true_iff in Hc.
  rewrite Hc, IH; auto.
Qed.

Lemma free_of_ends_with p w :
  forallb (complement p) w = true -> ends_with p w = false.
Proof.
  intros H. unfold ends_with.
  destruct (exists_last_or_nil w) as [->|(u & d & ->)]; [reflexivity|].
  rewrite rev_app_distr. simpl.
  rewrite forallb_app in H. apply andb_true_iff in H as [_ H].
  simpl in H. rewrite andb_true_r in H. apply negb_true_iff in H. exact H.
Qed.

(** A word that opens with a character: every language whose words
    cannot be empty and open inside [p]. *)
Lemma starts_with_sound p r w :
  nullable r = false -> firsts_within p r = true ->
  Matches r w -> starts_with p w = true.
Proof.
  intros Hn Hf Hm. destruct w as [|c w'].
  - apply nullable_Matches in Hm. congruence.
  - simpl. eapply firsts_within_sound; [exact Hf | exact Hm | reflexivity].
Qed.

Lemma ends_with_sound p r w :
  lasts_within (complement p) r = true -> Matches r w -> ends_with p w = false.
Proof.
  intros Hl Hm. unfold ends_with.
  destruct (exists_last_or_nil w) as [->|(u & d & ->)]; [reflexivity|].
  rewrite rev_app_distr. simpl. apply negb_true_iff.
  eapply (@lasts_within_sound (complement p) r); [exact Hl | exact Hm | reflexivity].
Qed.

(** Letters and digits after the opening split into a lowercase part
    and runs that each open with an uppercase letter. *)
Lemma alnum_split v :
  forallb is_alnum v = true ->
  exists tail runs,
    v = tail ++ List.concat runs
    /\ forallb is_lower_or_digit tail = true
    /\ forallb uppercase_run runs = true.
Proof.
  induction v as [|c v IH]; intros H.
  - exists [], []. auto.
  - simpl in H. apply andb_true_iff in H as [Hc Hv].
    destruct (IH Hv) as (tail & runs & -> & Ht & Hr).
    destruct (is_upper c) eqn:Eu.
    + exists [], ((c :: tail) :: runs). repeat split.
      simpl. rewrite Eu, Ht, Hr. reflexivity.
    + exists (c :: tail), runs. repeat split; [|exact Hr].
      simpl. rewrite Ht, andb_true_r.
      unfold is_alnum in Hc. rewrite Eu, orb_false_r in Hc. exact Hc.
Qed.

Lemma uppercase_runs_alnum runs :
  forallb uppercase_run runs = true -> forallb is_alnum (List.concat runs) = true.
Proof.
  induction runs as [|run runs IH]; simpl; [reflexivity|].
  intros H. apply andb_true_iff in H as [Hrun Hruns].
  rewrite forallb_app, IH, andb_true_r by exact Hruns.
  destruct run as [|u rest]; [discriminate|]. simpl in *.
  apply andb_true_iff in Hrun as [Hu Hrest].
  unfold is_alnum at 1. rewrite Hu, orb_true_r. simpl.
  exact (@forallb_impl is_lower_or_digit is_alnum rest lower_or_digit_is_alnum Hrest).
Qed.

Lemma camel_form_alnum w :
  camel_form w <-> starts_with is_lower w = true /\ forallb is_alnum w = true.
Proof.
  split.
  - intros (lows & tail & runs & -> & Hne & Hl & Ht & Hr).
    split.
    + destruct lows as [|c lows']; [contradiction|].
      simpl in *. apply andb_true_iff in Hl as [Hc _]. exact Hc.
    + rewrite !forallb_app.
      rewrite (@forallb_impl is_lower is_alnum lows
                 (fun c H => lower_or_digit_is_alnum _ (lower_is_lower_or_digit _ H)) Hl).
      rewrite (@forallb_impl is_lower_or_digit is_alnum tail lower_or_digit_is_alnum Ht).
      rewrite (uppercase_runs_alnum _ Hr). reflexivity.
  - intros [Hs Ha]. destruct w as [|c v]; [discriminate|].
    simpl in Hs, Ha. apply andb_true_iff in Ha as [_ Hv].
    destruct (alnum_split _ Hv) as (tail & runs & -> & Ht & Hr).
    exists [c], tail, runs. repeat split; auto.
    + discriminate.
    + simpl. rewrite Hs. reflexivity.
Qed.

(** What follows the opening letter of a kebab-case name splits into a
    lowercase part and hyphen-led groups. *)
Lemma kebab_tail_split v :
  forallb (fun c => is_lower_or_digit c || is_hyphen c) v = true ->
  no_adjacent is_hyphen v = true ->
  ends_with is_hyphen v = false ->
  exists tail rest,
    v = tail ++ rest
    /\ forallb is_lower_or_digit tail = true
    /\ Matches hyphen_groups rest.
Proof.
  induction v as [|c v IH]; intros Hall Hadj Hend.
  - exists [], []. repeat split. apply MStarNil.
  - simpl in Hall. apply andb_true_iff in Hall as [Hc Hv].
    destruct (IH Hv (no_adjacent_tail _ _ _ Hadj) (ends_with_tail_false _ _ _ Hend))
      as (tail & rest & E & Ht & Hr).
    destruct (is_hyphen c) eqn:Eh.
    + destruct v as [|d v'].
      { unfold ends_with in Hend. simpl in Hend. congruence. }
      change (negb (is_hyphen c && is_hyphen d) && no_adjacent is_hyphen (d :: v') = true)
        in Hadj.
      apply andb_true_iff in Hadj as [Hcd _]. rewrite Eh in Hcd. simpl in Hcd.
      apply negb_true_iff in Hcd.
      destruct tail as [|d' tail'].
      { simpl in E. subst rest.
        assert (Hd : is_hyphen d = true).
        { eapply (@firsts_within_sound is_hyphen hyphen_groups);
            [vm_compute; reflexivity | exact Hr | reflexivity]. }
        congruence. }
      exists [], ((c :: d' :: tail') ++ rest). repeat split.
      * simpl. rewrite E. reflexivity.
      * unfold hyphen_groups. apply MStarApp; [|exact Hr].
        unfold is_hyphen in Eh. apply Ascii.eqb_eq in Eh. subst c.
        apply Matches_Cat_chr. exists (d' :: tail'). split; [reflexivity|].
        apply (@Matches_Plus_class _ _ in_class_lower_or_digit _).
        split; [discriminate | exact Ht].
    + rewrite orb_false_r in Hc.
      exists (c :: tail), rest. repeat split; [| |exact Hr].
      * simpl. rewrite E. reflexivity.
      * simpl. rewrite Hc, Ht. reflexivity.
Qed.

Lemma Matches_kebab_re w : Matches kebab_re w <-> kebab_shape w = true.
Proof.
  unfold kebab_shape. split.
  - intros H. rewrite !andb_true_iff. repeat split.
    + eapply starts_with_sound; [ | | exact H]; vm_compute; reflexivity.
    + eapply (@chars_within_sound
                (fun c => is_lower_or_digit c || is_hyphen c) kebab_re);
        [vm_compute; reflexivity | exact H].
    + eapply (@never_adjacent_sound is_hyphen kebab_re);
        [vm_compute; reflexivity | exact H].
    + apply negb_true_iff.
      eapply ends_with_sound; [ | exact H]; vm_compute; reflexivity.
  - intros H. rewrite !andb_true_iff in H.
    destruct H as [[[Hs Hall] Hadj] Hend]. apply negb_true_iff in Hend.
    destruct w as [|c v]; [discriminate|].
    simpl in Hs, Hall. apply andb_true_iff in Hall as [_ Hv].
    destruct (@kebab_tail_split v Hv (no_adjacent_tail _ _ _ Hadj)
                (ends_with_tail_false _ _ _ Hend))
      as (tail & rest & -> & Ht & Hr).
    apply Matches_camel_then. exists [c], tail, rest.
    repeat split; auto.
    + discriminate.
    + simpl. rewrite Hs. reflexivity.
Qed.

Lemma kebab_join a b :
  Matches kebab_re a -> Matches kebab_re b -> Matches kebab_re (a ++ "-" :: b).
Proof.
  unfold kebab_re. intros Ha Hb.
  apply Matches_camel_then in Ha as (la & ta & ra & -> & Hna & Hla & Hta & Hra).
  apply Matches_camel_then in Hb as (lb & tb & rb & -> & Hnb & Hlb & Htb & Hrb).
  apply Matches_camel_then.
  exists la, ta, (ra ++ ("-" :: lb ++ tb) ++ rb). repeat split; auto.
  - repeat rewrite <- app_assoc. simpl. repeat rewrite <- app_assoc. reflexivity.
  - apply Matches_Star_app; [exact Hra|].
    unfold hyphen_groups. apply MStarApp; [|exact Hrb].
    apply Matches_Cat_chr. exists (lb ++ tb). split; [reflexivity|].
    apply (@Matches_Plus_class _ _ in_class_lower_or_digit _). split.
    + destruct lb; [contradiction | discriminate].
    + rewrite forallb_app, Htb, andb_true_r.
      exact (@forallb_impl is_lower is_lower_or_digit lb lower_is_lower_or_digit Hlb).
Qed.

Lemma forallb_existsb_absurd (p : ascii -> bool) w :
  forallb (complement p) w = true -> existsb p w = true -> False.
Proof.
  intros Hall Hex. apply forallb_negb_existsb in Hall. congruence.
Qed.


(* ================================================================= *)
(** ** Words of the patterns, once more *)

Lemma Matches_kinds_exclusive k1 k2 w :
  Matches (segment_regex k1) w -> Matches (segment_regex k2) w -> k1 = k2.
Proof.
  intros H1 H2.
  destruct k1, k2; try reflexivity; exfalso;
    (eapply separable_sound; [ | exact H1 | exact H2]); vm_compute; reflexivity.
Qed.

Lemma kebab_word_shape w :
  Matches kebab_re w ->
  existsb is_upper w = false
  /\ no_adjacent is_hyphen w = true
  /\ starts_with is_hyphen w = false
  /\ ends_with is_hyphen w = false.
Proof.
  intros H. repeat split.
  - apply forallb_negb_existsb.
    eapply (@chars_within_sound (fun c => negb (is_upper c)) kebab_re);
      [vm_compute; reflexivity | exact H].
  - eapply (@never_adjacent_sound is_hyphen kebab_re);
      [vm_compute; reflexivity | exact H].
  - destruct w as [|c w']; [reflexivity|]. simpl.
    apply negb_true_iff.
    eapply (@firsts_within_sound (complement is_hyphen) kebab_re);
      [vm_compute; reflexivity | exact H | reflexivity].
  - eapply ends_with_sound; [ | exact H]. vm_compute. reflexivity.
Qed.




Lemma kebab_camel_words w :
  Matches kebab_re w /\ Matches camel_re w <->
  starts_with is_lower w = true /\ forallb is_lower_or_digit w = true.
Proof.
  rewrite Matches_kebab_re, Matches_camel_re, camel_form_alnum.
  unfold kebab_shape. split.
  - intros [Hk [Hs Ha]]. rewrite !andb_true_iff in Hk.
    destruct Hk as [[[_ Hall] _] _]. split; [exact Hs|].
    exact (@forallb_both _ is_alnum is_lower_or_digit w alnum_not_hyphen Hall Ha).
  - intros [Hs Hl].
    pose proof (@forallb_impl is_lower_or_digit (complement is_hyphen) w
                  lower_or_digit_not_hyphen Hl) as Hfree.
    split; [|split].
    + rewrite Hs, (free_of_no_adjacent _ _ Hfree), (free_of_ends_with _ _ Hfree).
      simpl. rewrite !andb_true_r.
      apply (@forallb_impl is_lower_or_digit _ w); [|exact Hl].
      intros c ->. reflexivity.
    + exact Hs.
    + exact (@forallb_impl is_lower_or_digit is_alnum w lower_or_digit_is_alnum Hl).
Qed.

(* ================================================================= *)
(** ** The test of a name against a pattern *)

Local Open Scope string_scope.

Lemma isMatch_iff pattern name :
  isMatch pattern name = true <->
  name <> "" /\ (name = pattern \/ regexMatch pattern name = true).
Proof.
  unfold isMatch.
  rewrite andb_true_iff, negb_true_iff, orb_true_iff, String.eqb_neq, String.eqb_eq.
  reflexivity.
Qed.

Section Reading.

Variables (pattern : string) (r : regex).
Hypothesis reading : reads_as pattern r.

(** A name is accepted when it is the text of the pattern or a word of
    its regular expression. *)
Lemma isMatch_reading name :
  isMatch pattern name = true <->
  name = pattern \/ Matches r (list_ascii_of_string name).
Proof.
  destruct reading as (E & Hn & Hp & _).
  rewrite isMatch_iff, (@regexMatch_reading _ _ name E). split.
  - intros [_ H]. exact H.
  - intros [->|H]; split; auto.
    intros ->. apply nullable_Matches in H. congruence.
Qed.

(** The words of the regular expression are the accepted names other
    than the text of the pattern. *)
Lemma isMatch_proper name :
  isMatch pattern name = true /\ name <> pattern <->
  Matches r (list_ascii_of_string name).
Proof.
  rewrite isMatch_reading. split.
  - intros [[E|H] Hne]; [contradiction | exact H].
  - intros H. split; [right; exact H|].
    intros ->. destruct reading as (_ & _ & _ & Hown).
    apply matchb_Matches in H. congruence.
Qed.

End Reading.

Lemma reads_CAMEL_CASE : reads_as CAMEL_CASE camel_re.
Proof. repeat split; try (vm_compute; reflexivity). vm_compute. discriminate. Qed.

Lemma reads_KEBAB_CASE : reads_as KEBAB_CASE kebab_re.
Proof. repeat split; try (vm_compute; reflexivity). vm_compute. discriminate. Qed.

Lemma reads_buildRouteSegment kind :
  reads_as (buildRouteSegment kind) (segment_regex kind).
Proof.
  destruct kind; repeat split; try (vm_compute; reflexivity);
    vm_compute; discriminate.
Qed.

Lemma reads_ROUTE_SEGMENT : reads_as TANSTACK_ROUTE_SEGMENT route_segment_re.
Proof. repeat split; try (vm_compute; reflexivity). vm_compute. discriminate. Qed.

Lemma reads_FOLDER_CASE : reads_as TANSTACK_FOLDER_CASE route_segment_re.
Proof. repeat split; try (vm_compute; reflexivity). vm_compute. discriminate. Qed.

Lemma reads_FILENAME_CASE : reads_as TANSTACK_FILENAME_CASE filename_re.
Proof. repeat split; try (vm_compute; reflexivity). vm_compute. discriminate. Qed.

(** The regular expression of no segment kind accepts the text of the
    pattern of a segment kind. *)
Lemma kind_text_not_a_word k1 k2 :
  matchb (segment_regex k2) (list_ascii_of_string (buildRouteSegment k1)) = false.
Proof. destruct k1, k2; vm_compute; reflexivity. Qed.

Lemma buildRouteSegment_inj k1 k2 :
  buildRouteSegment k1 = buildRouteSegment k2 -> k1 = k2.
Proof.
  destruct k1, k2; intros E; try reflexivity; vm_compute in E; discriminate.
Qed.

(** From a word to the name that spells it. *)
Lemma name_of_word (w : list ascii) :
  exists name, list_ascii_of_string name = w.
Proof. exists (string_of_list_ascii w). apply list_ascii_of_string_of_list_ascii. Qed.

Ltac not_a_word H :=
  apply matchb_Matches in H; vm_compute in H; discriminate H.

(* ================================================================= *)
(** ** Properties of the grammar *)

(** C1.  The six kinds of route segment are mutually exclusive: a name
    matched by the patterns of two kinds is matched by one and the same
    kind.  In particular no name is both a catch-all and an optional
    segment.  The only overlap is inside the static kind, whose kebab
    and camel alternatives share names. *)
Theorem segment_kinds_exclusive :
  (forall (name : string) (k1 k2 : RouteSegmentKind),
      isMatch (buildRouteSegment k1) name = true ->
      isMatch (buildRouteSegment k2) name = true ->
      k1 = k2)
  /\ (forall name : string,
         isMatch TANSTACK_CATCH_ALL_SEGMENTS name = true ->
         isMatch TANSTACK_OPTIONAL_SEGMENTS name = true -> False)
  /\ (isMatch KEBAB_CASE "about" = true /\ isMatch CAMEL_CASE "about" = true).
Proof.
  assert (Hex : forall (name : string) (k1 k2 : RouteSegmentKind),
             isMatch (buildRouteSegment k1) name = true ->
             isMatch (buildRouteSegment k2) name = true ->
             k1 = k2).
  { intros name k1 k2 H1 H2.
    apply (isMatch_reading (reads_buildRouteSegment k1)) in H1.
    apply (isMatch_reading (reads_buildRouteSegment k2)) in H2.
    destruct H1 as [E1|M1], H2 as [E2|M2].
    - apply buildRouteSegment_inj. congruence.
    - subst name. apply matchb_Matches in M2.
      rewrite kind_text_not_a_word in M2. discriminate.
    - subst name. apply matchb_Matches in M1.
      rewrite kind_text_not_a_word in M1. discriminate.
    - exact (Matches_kinds_exclusive _ _ M1 M2). }
  split; [exact Hex|]. split.
  - intros name H1 H2.
    pose proof (Hex name CatchAll OptionalParam H1 H2). discriminate.
  - split; vm_compute; reflexivity.
Qed.

Lemma segment_kinds_exclusive_witness :
  DynamicParam = DynamicParam.
Proof.
  apply (proj1 segment_kinds_exclusive "$productId" DynamicParam DynamicParam);
    vm_compute; reflexivity.
Defined.




(** C3.  A name matched by the kebab-case pattern has no uppercase
    letter and no two hyphens in a row, and neither begins nor ends with
    a hyphen. *)
Theorem kebab_case_shape (name : string) :
  isMatch KEBAB_CASE name = true ->
  existsb is_upper (list_ascii_of_string name) = false
  /\ no_adjacent is_hyphen (list_ascii_of_string name) = true
  /\ starts_with is_hyphen (list_ascii_of_string name) = false
  /\ ends_with is_hyphen (list_ascii_of_string name) = false.
Proof.
  intros H. apply (isMatch_reading reads_KEBAB_CASE) in H as [->|H].
  - repeat split; vm_compute; reflexivity.
  - apply kebab_word_shape. exact H.
Qed.

Lemma kebab_case_shape_witness :
  existsb is_upper (list_ascii_of_string "user-profile") = false
  /\ no_adjacent is_hyphen (list_ascii_of_string "user-profile") = true
  /\ starts_with is_hyphen (list_ascii_of_string "user-profile") = false
  /\ ends_with is_hyphen (list_ascii_of_string "user-profile") = false.
Proof.
  apply (kebab_case_shape "user-profile"). vm_compute. reflexivity.
Defined.




(** C5.  The dynamic-segment pattern accepts [$id] and [$productId];
    it rejects [id], which lacks the sigil, and [$Id], whose name opens
    with an uppercase letter. *)
Theorem dynamic_segment_examples :
  isMatch TANSTACK_DYNAMIC_SEGMENTS "$id" = true
  /\ isMatch TANSTACK_DYNAMIC_SEGMENTS "$productId" = true
  /\ isMatch TANSTACK_DYNAMIC_SEGMENTS "id" = false
  /\ isMatch TANSTACK_DYNAMIC_SEGMENTS "$Id" = false.
Proof. repeat split; vm_compute; reflexivity. Qed.

(** C6.  The route-group pattern accepts [(admin)] and [(user-profile)];
    it rejects [admin], which lacks the parentheses, and [(UserProfile)],
    whose content is not kebab-case. *)
Theorem route_group_examples :
  isMatch TANSTACK_ROUTE_GROUPS "(admin)" = true
  /\ isMatch TANSTACK_ROUTE_GROUPS "(user-profile)" = true
  /\ isMatch TANSTACK_ROUTE_GROUPS "admin" = false
  /\ isMatch TANSTACK_ROUTE_GROUPS "(UserProfile)" = false.
Proof. repeat split; vm_compute; reflexivity. Qed.




(** C8.  The folder rule maps the glob [apps/*/app/routes/**] to the
    folder grammar; held to it, [(user-profile)] and [_utils] are
    accepted and [UserProfile] is rejected. *)
Theorem routes_folder_rule :
  rule_for "apps/*/app/routes/**" folder_naming_convention = Some TANSTACK_FOLDER_CASE
  /\ isMatch TANSTACK_FOLDER_CASE "(user-profile)" = true
  /\ isMatch TANSTACK_FOLDER_CASE "UserProfile" = false
  /\ isMatch TANSTACK_FOLDER_CASE "_utils" = true.
Proof. repeat split; vm_compute; reflexivity. Qed.

(** C9.  The folder pattern is the full segment pattern alone: the two
    are the same pattern and accept the same names. *)
Theorem folder_pattern_is_segment_pattern :
  TANSTACK_FOLDER_CASE = TANSTACK_ROUTE_SEGMENT
  /\ forall name : string,
       isMatch TANSTACK_FOLDER_CASE name = isMatch TANSTACK_ROUTE_SEGMENT name.
Proof. split; [reflexivity | intros name; reflexivity]. Qed.




(* ================================================================= *)
(** ** Further properties of the grammar *)

(** A pattern that reads as one character followed by the reading of
    another pattern accepts, besides its own text, the names the other
    pattern accepts, the text of that one apart, with the character put
    in front. *)
Lemma isMatch_prefixed p q ch r :
  reads_as p (Cat (chr ch) r) -> reads_as q r ->
  forall name,
    isMatch p name = true <->
    name = p
    \/ exists rest, isMatch q rest = true /\ rest <> q /\ name = String ch rest.
Proof.
  intros Rp Rq name.
  rewrite (isMatch_reading Rp), Matches_Cat_chr. split.
  - intros [E|(v & E & Hv)]; [left; exact E | right].
    destruct (name_of_word v) as (n & <-). exists n.
    apply (isMatch_proper Rq) in Hv as [H1 H2].
    split; [exact H1 | split; [exact H2|]].
    apply list_ascii_of_string_inj. exact E.
  - intros [E|(rest & H1 & H2 & ->)]; [left; exact E | right].
    exists (list_ascii_of_string rest). split; [reflexivity|].
    apply (isMatch_proper Rq). auto.
Qed.

(** X1.  The catch-all pattern accepts the bare sigil and its own
    two-character text, and nothing else. *)
Theorem catch_all_only_sigil (name : string) :
  isMatch TANSTACK_CATCH_ALL_SEGMENTS name = true <->
  name = "$" \/ name = TANSTACK_CATCH_ALL_SEGMENTS.
Proof.
  rewrite (isMatch_reading (reads_buildRouteSegment CatchAll)).
  simpl segment_regex. unfold catch_all_re. split.
  - intros [E|H]; [right; exact E | left].
    apply Matches_chr_inv in H. apply list_ascii_of_string_inj. exact H.
  - intros [->|E]; [right; apply Matches_chr | left; exact E].
Qed.

(** X2.  Besides its own text, the dynamic-segment pattern accepts
    exactly the names the camel-case pattern accepts, the text of the
    camel-case pattern apart, with the sigil put in front. *)
Theorem dynamic_is_sigil_then_camel (name : string) :
  isMatch TANSTACK_DYNAMIC_SEGMENTS name = true <->
  name = TANSTACK_DYNAMIC_SEGMENTS
  \/ exists c, isMatch CAMEL_CASE c = true /\ c <> CAMEL_CASE /\ name = "$" ++ c.
Proof.
  exact (@isMatch_prefixed TANSTACK_DYNAMIC_SEGMENTS CAMEL_CASE "$"%char camel_re
           (reads_buildRouteSegment DynamicParam) reads_CAMEL_CASE name).
Qed.

(** X3.  Besides its own text, the route-group pattern accepts exactly
    the names the kebab-case pattern accepts, the text of the
    kebab-case pattern apart, wrapped in parentheses. *)
Theorem route_group_is_parenthesized_kebab (name : string) :
  isMatch TANSTACK_ROUTE_GROUPS name = true <->
  name = TANSTACK_ROUTE_GROUPS
  \/ exists k, isMatch KEBAB_CASE k = true /\ k <> KEBAB_CASE
               /\ name = "(" ++ k ++ ")".
Proof.
  rewrite (isMatch_reading (reads_buildRouteSegment RouteGroup)).
  simpl segment_regex. rewrite Matches_route_group_re. split.
  - intros [E|(w & Hw & E)]; [left; exact E | right].
    destruct (name_of_word w) as (k & <-). exists k.
    apply (isMatch_proper reads_KEBAB_CASE) in Hw as [H1 H2].
    split; [exact H1 | split; [exact H2|]].
    apply list_ascii_of_string_inj. simpl.
    rewrite list_ascii_of_string_app. exact E.
  - intros [E|(k & H1 & H2 & ->)]; [left; exact E | right].
    exists (list_ascii_of_string k). split.
    + apply (isMatch_proper reads_KEBAB_CASE). auto.
    + simpl. rewrite list_ascii_of_string_app. reflexivity.
Qed.

(** X4.  Besides its own text, the private-folder pattern accepts
    exactly the names the camel-case pattern accepts, the text of the
    camel-case pattern apart, with an underscore put in front. *)
Theorem private_is_underscore_then_camel (name : string) :
  isMatch TANSTACK_PRIVATE_FOLDERS name = true <->
  name = TANSTACK_PRIVATE_FOLDERS
  \/ exists c, isMatch CAMEL_CASE c = true /\ c <> CAMEL_CASE /\ name = "_" ++ c.
Proof.
  exact (@isMatch_prefixed TANSTACK_PRIVATE_FOLDERS CAMEL_CASE "_"%char camel_re
           (reads_buildRouteSegment PrivateFolder) reads_CAMEL_CASE name).
Qed.

(** X5.  Besides its own text, the static pattern accepts exactly the
    names the kebab-case or the camel-case pattern accepts, the texts
    of those two patterns apart. *)
Theorem static_is_kebab_or_camel (name : string) :
  isMatch TANSTACK_STATIC_ROUTE name = true <->
  name = TANSTACK_STATIC_ROUTE
  \/ (isMatch KEBAB_CASE name = true /\ name <> KEBAB_CASE)
  \/ (isMatch CAMEL_CASE name = true /\ name <> CAMEL_CASE).
Proof.
  rewrite (isMatch_reading (reads_buildRouteSegment Static)).
  rewrite (isMatch_proper reads_KEBAB_CASE), (isMatch_proper reads_CAMEL_CASE).
  simpl segment_regex. unfold static_re. split.
  - intros [E|H]; [left; exact E | right]. apply Matches_Alt_inv. exact H.
  - intros [E|[H|H]]; [left; exact E | right; apply MAltL, H | right; apply MAltR, H].
Qed.

(** X6.  Besides its own text, the full segment pattern accepts
    exactly the names that the pattern of one of the six kinds accepts,
    the text of that pattern apart. *)
Theorem route_segment_is_union_of_kinds (name : string) :
  isMatch TANSTACK_ROUTE_SEGMENT name = true <->
  name = TANSTACK_ROUTE_SEGMENT
  \/ exists kind, isMatch (buildRouteSegment kind) name = true
                  /\ name <> buildRouteSegment kind.
Proof.
  rewrite (isMatch_reading reads_ROUTE_SEGMENT), Matches_route_segment_re.
  split; (intros [E|(kind & H)]; [left; exact E | right]); exists kind;
    apply (isMatch_proper (reads_buildRouteSegment kind)); exact H.
Qed.

(** X7.  Besides its own text, the camel-case pattern accepts exactly
    the names that begin with a lowercase letter and consist of letters
    and digits only; uppercase letters may follow one another. *)
Theorem camel_case_is_lowercase_led_alnum (name : string) :
  isMatch CAMEL_CASE name = true <->
  name = CAMEL_CASE
  \/ (starts_with is_lower (list_ascii_of_string name) = true
      /\ forallb is_alnum (list_ascii_of_string name) = true).
Proof.
  rewrite (isMatch_reading reads_CAMEL_CASE), Matches_camel_re, camel_form_alnum.
  reflexivity.
Qed.

(** X8.  Besides its own text, the kebab-case pattern accepts exactly
    the names that begin with a lowercase letter, consist of lowercase
    letters, digits and hyphens, have no two hyphens in a row and do
    not end with a hyphen. *)
Theorem kebab_case_is_kebab_shape (name : string) :
  isMatch KEBAB_CASE name
  = (name =? KEBAB_CASE) || kebab_shape (list_ascii_of_string name).
Proof.
  apply eq_true_iff_eq.
  rewrite (isMatch_reading reads_KEBAB_CASE).
  rewrite orb_true_iff, String.eqb_eq, Matches_kebab_re. reflexivity.
Qed.

(** X9.  The names both the kebab-case and the camel-case pattern
    accept, the overlap inside the static kind, are exactly the names
    of lowercase letters and digits that begin with a letter. *)
Theorem kebab_camel_overlap (name : string) :
  isMatch KEBAB_CASE name = true /\ isMatch CAMEL_CASE name = true <->
  starts_with is_lower (list_ascii_of_string name) = true
  /\ forallb is_lower_or_digit (list_ascii_of_string name) = true.
Proof.
  rewrite (isMatch_reading reads_KEBAB_CASE), (isMatch_reading reads_CAMEL_CASE).
  split.
  - intros [[Ek|Hk] [Ec|Hc]].
    + rewrite Ek in Ec. vm_compute in Ec. discriminate.
    + rewrite Ek in Hc. not_a_word Hc.
    + rewrite Ec in Hk. not_a_word Hk.
    + apply kebab_camel_words. auto.
  - intros H. apply kebab_camel_words in H as [Hk Hc]. split; right; assumption.
Qed.

(** X10.  A name the folder pattern or the filename pattern accepts,
    the text of the pattern apart, is not empty and opens with a
    lowercase letter, the sigil, an opening parenthesis or an
    underscore; a name that opens with an uppercase letter or a digit
    is rejected. *)
Theorem segment_opening (name : string) :
  (isMatch TANSTACK_FOLDER_CASE name = true /\ name <> TANSTACK_FOLDER_CASE)
  \/ (isMatch TANSTACK_FILENAME_CASE name = true /\ name <> TANSTACK_FILENAME_CASE) ->
  starts_with segment_lead (list_ascii_of_string name) = true.
Proof.
  rewrite (isMatch_proper reads_FOLDER_CASE), (isMatch_proper reads_FILENAME_CASE).
  intros [H|H];
    (eapply starts_with_sound; [ | | exact H]); vm_compute; reflexivity.
Qed.

Lemma segment_opening_witness :
  starts_with segment_lead (list_ascii_of_string "(user-profile)") = true.
Proof.
  apply (@segment_opening "(user-profile)"). left. split.
  - vm_compute. reflexivity.
  - intros E. vm_compute in E. discriminate.
Defined.

(** X11.  Two names the kebab-case pattern accepts, neither being the
    text of the pattern, joined by a hyphen form a name the pattern
    accepts. *)
Theorem kebab_case_join (a b : string) :
  isMatch KEBAB_CASE a = true -> a <> KEBAB_CASE ->
  isMatch KEBAB_CASE b = true -> b <> KEBAB_CASE ->
  isMatch KEBAB_CASE (a ++ "-" ++ b) = true.
Proof.
  intros Ha Hna Hb Hnb.
  apply (isMatch_reading reads_KEBAB_CASE). right.
  rewrite list_ascii_of_string_app. simpl.
  apply kebab_join; apply (isMatch_proper reads_KEBAB_CASE); auto.
Qed.

Lemma kebab_case_join_witness :
  isMatch KEBAB_CASE ("user" ++ "-" ++ "profile") = true.
Proof.
  apply (@kebab_case_join "user" "profile").
  - vm_compute. reflexivity.
  - intros E. vm_compute in E. discriminate.
  - vm_compute. reflexivity.
  - intros E. vm_compute in E. discriminate.
Defined.

(** X12.  Among the names the folder pattern accepts, its own text
    apart, only optional segments contain a dot or a question mark. *)
Theorem dot_or_question_only_in_optional (name : string) :
  isMatch TANSTACK_FOLDER_CASE name = true -> name <> TANSTACK_FOLDER_CASE ->
  existsb is_dot_or_question (list_ascii_of_string name) = true ->
  isMatch TANSTACK_OPTIONAL_SEGMENTS name = true.
Proof.
  intros H Hne Hex.
  assert (Hw : Matches route_segment_re (list_ascii_of_string name)).
  { apply (isMatch_proper reads_FOLDER_CASE). auto. }
  apply (isMatch_reading (reads_buildRouteSegment OptionalParam)). right.
  apply Matches_route_segment_re in Hw as (kind & Hk).
  destruct kind; try exact Hk; exfalso;
    (eapply forallb_existsb_absurd; [|exact Hex]);
    (eapply chars_within_sound; [|exact Hk]); vm_compute; reflexivity.
Qed.

Lemma dot_or_question_only_in_optional_witness :
  isMatch TANSTACK_OPTIONAL_SEGMENTS "$.slug" = true.
Proof.
  apply (@dot_or_question_only_in_optional "$.slug").
  - vm_compute. reflexivity.
  - intros E. vm_compute in E. discriminate.
  - vm_compute. reflexivity.
Defined.

(** X13.  Among the names the folder pattern accepts, its own text
    apart, only kebab-case names and route groups contain a hyphen: the
    names of dynamic, optional and private segments are hyphen-free. *)
Theorem hyphen_only_in_kebab_or_group (name : string) :
  isMatch TANSTACK_FOLDER_CASE name = true -> name <> TANSTACK_FOLDER_CASE ->
  existsb is_hyphen (list_ascii_of_string name) = true ->
  isMatch KEBAB_CASE name = true \/ isMatch TANSTACK_ROUTE_GROUPS name = true.
Proof.
  intros H Hne Hex.
  assert (Hw : Matches route_segment_re (list_ascii_of_string name)).
  { apply (isMatch_proper reads_FOLDER_CASE). auto. }
  rewrite (isMatch_reading reads_KEBAB_CASE).
  rewrite (isMatch_reading (reads_buildRouteSegment RouteGroup)).
  apply Matches_route_segment_re in Hw as (kind & Hk).
  destruct kind; simpl segment_regex in *;
    try (right; right; exact Hk);
    try (exfalso; (eapply forallb_existsb_absurd; [|exact Hex]);
         (eapply chars_within_sound; [|exact Hk]); vm_compute; reflexivity).
  apply Matches_Alt_inv in Hk as [Hk|Hk]; [left; right; exact Hk|].
  exfalso. eapply forallb_existsb_absurd; [|exact Hex].
  eapply chars_within_sound; [|exact Hk]. vm_compute. reflexivity.
Qed.

Lemma hyphen_only_in_kebab_or_group_witness :
  isMatch KEBAB_CASE "team-page" = true
  \/ isMatch TANSTACK_ROUTE_GROUPS "team-page" = true.
Proof.
  apply (@hyphen_only_in_kebab_or_group "team-page").
  - vm_compute. reflexivity.
  - intros E. vm_compute in E. discriminate.
  - vm_compute. reflexivity.
Defined.

(** X14.  Of the patterns the module builds, the two naming rule
    tables use the folder pattern alone, for the routes glob; every
    other entry names a built-in case style, and no entry holds names
    to the filename pattern. *)
Theorem rule_tables_use_folder_pattern_only (glob naming : string) :
  In (glob, naming) (folder_naming_convention ++ filename_naming_convention) ->
  naming <> TANSTACK_FILENAME_CASE
  /\ ((glob = "apps/*/app/routes/**" /\ naming = TANSTACK_FOLDER_CASE)
      \/ In naming builtin_case_names).
Proof.
  intros H. simpl in H.
  repeat (destruct H as [H|H];
          [injection H as <- <-;
           (split; [vm_compute; discriminate|]);
           first [left; split; reflexivity | right; simpl; tauto]|]).
  contradiction.
Qed.

Lemma rule_tables_use_folder_pattern_only_witness :
  "KEBAB_CASE" <> TANSTACK_FILENAME_CASE
  /\ (("**/app/styles/*.css" = "apps/*/app/routes/**"
       /\ "KEBAB_CASE" = TANSTACK_FOLDER_CASE)
      \/ In "KEBAB_CASE" builtin_case_names).
Proof.
  apply (@rule_tables_use_folder_pattern_only "**/app/styles/*.css" "KEBAB_CASE").
  simpl. tauto.
Defined.
